(** * ngcc utilities ([packages/compiler-cli/ngcc/src/utils.ts])

    A shallow embedding of the utility functions of ngcc and of the
    [PartiallyOrderedList] interface, with the properties that the
    specification states about them. *)

From Stdlib Require Import ZArith Lia.
From stdpp Require Import base option list strings.

Set Default Proof Using "Type".

(** * Syntax trees *)

(** A [ts.Node] seen as a finite tree: a payload (kind, text, position, ...)
    and the children in the order in which [forEachChild] enumerates them. *)
Module Tree.

Section Tree.
Context {A : Type}.

Unset Elimination Schemes.
Inductive Node : Type :=
  | mkNode (payload : A) (children : list Node).
Set Elimination Schemes.

Definition payload (n : Node) : A := let 'mkNode a _ := n in a.
Definition children (n : Node) : list Node := let 'mkNode _ cs := n in cs.

(** [n.forEachChild(cb)] calls [cb] on every child in order and stops early
    only when [cb] returns a truthy value; the arrow function given by
    [findAllVisitor] returns [undefined], so every child is visited.  The
    callback updates the captured array [nodes], which is threaded here. *)
Definition forEachChild {S : Type} (n : Node) (cb : Node → S → S) (s : S) : S :=
  fold_left (λ acc child, cb child acc) (children n) s.

(** The inner function of [findAll]; [nodes] is the captured result array
    and [nodes.push(n)] appends at its end. *)
Fixpoint findAllVisitor (test : Node → bool) (n : Node) (nodes : list Node)
    {struct n} : list Node :=
  if test n then nodes ++ [n]
  else
    forEachChild n (λ child acc, findAllVisitor test child acc) nodes.

Definition findAll (node : Node) (test : Node → bool) : list Node :=
  let nodes := [] in
  findAllVisitor test node nodes.

(** ** Positions

    Node identity is by reference: a node of the tree is identified by its
    position, the list of child indices leading to it from the root. *)
Definition Path : Type := list nat.

Fixpoint subtree_at (n : Node) (p : Path) : option Node :=
  match p with
  | [] => Some n
  | i :: p' =>
      match children n !! i with
      | Some c => subtree_at c p'
      | None => None
      end
  end.

(** All positions of a tree in depth-first pre-order: a node before its
    children, the children from first to last. *)
Fixpoint positions (n : Node) : list Path :=
  match n with
  | mkNode _ cs =>
      [] :: (fix below (i : nat) (cs : list Node) : list Path :=
               match cs with
               | [] => []
               | c :: cs' => ((i ::.) <$> positions c) ++ below (S i) cs'
               end) 0 cs
  end.

Fixpoint positions_below (i : nat) (cs : list Node) : list Path :=
  match cs with
  | [] => []
  | c :: cs' => ((i ::.) <$> positions c) ++ positions_below (S i) cs'
  end.

(** [q] lies strictly below [p]: the node at [q] is a descendant of the
    node at [p]. *)
Definition descendant (q p : Path) : Prop := ∃ d, d ≠ [] ∧ q = p ++ d.

(** The positions at which [findAll] records a node. *)
Fixpoint matchPaths (test : Node → bool) (n : Node) : list Path :=
  if test n then [[]]
  else
    match n with
    | mkNode _ cs =>
        (fix below (i : nat) (cs : list Node) : list Path :=
           match cs with
           | [] => []
           | c :: cs' => ((i ::.) <$> matchPaths test c) ++ below (S i) cs'
           end) 0 cs
    end.

Fixpoint matchPaths_below (test : Node → bool) (i : nat) (cs : list Node)
    : list Path :=
  match cs with
  | [] => []
  | c :: cs' =>
      ((i ::.) <$> matchPaths test c) ++ matchPaths_below test (S i) cs'
  end.

(** The nodes on which [findAllVisitor] is invoked, in order. *)
Fixpoint visits (test : Node → bool) (n : Node) : list Node :=
  if test n then [n]
  else
    match n with
    | mkNode _ cs => n :: (cs ≫= visits test)
    end.

(** Size and height, the measures of the traversal. *)
Fixpoint size (n : Node) : nat :=
  match n with
  | mkNode _ cs => S (sum_list_with size cs)
  end.

Fixpoint height (n : Node) : nat :=
  match n with
  | mkNode _ cs => S (max_list_with height cs)
  end.

End Tree.
Arguments Node : clear implicits.

End Tree.

(** * The traversal over a store of node objects

    In the program a node is an object reached by reference; its children
    are read from it when [forEachChild] runs, and [test] is an ordinary
    function that may have side effects.  [World] is everything a call may
    read or write, [childRefs w n] the children that [forEachChild]
    enumerates for [n] in [w]; both belong to the external syntax tree. *)
Module Store.

Section Store.
Context {World Ref : Type}.
Variable childRefs : World → Ref → list Ref.

(** A possibly effectful predicate. *)
Definition Test : Type := Ref → World → bool * World.

(** [visited] is a ghost log of the invocations of [findAllVisitor]. *)
Record Frame : Type := mkFrame {
  world : World;
  nodes : list Ref;
  visited : list Ref
}.

Fixpoint forEach (cb : Ref → Frame → option Frame) (cs : list Ref)
    (σ : Frame) : option Frame :=
  match cs with
  | [] => Some σ
  | c :: cs' =>
      match cb c σ with
      | Some σ' => forEach cb cs' σ'
      | None => None
      end
  end.

(** [fuel] bounds the depth of the recursion; [None] is a run that needs
    more. *)
Fixpoint findAllVisitor (fuel : nat) (test : Test) (n : Ref) (σ : Frame)
    : option Frame :=
  match fuel with
  | O => None
  | S fuel' =>
      let '(b, w) := test n (world σ) in
      if b then
        Some (mkFrame w (nodes σ ++ [n]) (visited σ ++ [n]))
      else
        forEach (findAllVisitor fuel' test) (childRefs w n)
          (mkFrame w (nodes σ) (visited σ ++ [n]))
  end.

Definition findAll (fuel : nat) (node : Ref) (test : Test) (w : World)
    : option Frame :=
  findAllVisitor fuel test node (mkFrame w [] []).

(** A pure predicate leaves the world as it found it. *)
Definition pure (test : Test) : Prop := ∀ n w, (test n w).2 = w.

(** The predicate on a tree of references that [test] computes in [w]. *)
Definition testIn (test : Test) (w : World) : Tree.Node Ref → bool :=
  λ t, (test (Tree.payload t) w).1.

(** [unfolds w r t]: followed from [r] in [w], the references unfold into
    the finite tree [t], every node labelled with its reference. *)
Unset Elimination Schemes.
Inductive unfolds (w : World) : Ref → Tree.Node Ref → Prop :=
  | unfolds_node r cs :
      childRefs w r = Tree.payload <$> cs →
      Forall (λ c, unfolds w (Tree.payload c) c) cs →
      unfolds w r (Tree.mkNode r cs).
Set Elimination Schemes.

End Store.

End Store.

(** * Partially ordered lists *)

(** [PartiallyOrderedList<T>] is an [Array<T>] that carries the brand
    [_partiallyOrdered: true].  The brand is a property of the static type;
    the interface only redeclares the result types of [map] and [slice],
    whose behaviour is that of [Array.prototype.map] and
    [Array.prototype.slice] (on arrays without holes, with integer
    arguments). *)
Module POL.

Record PartiallyOrderedList (T : Type) : Type := mkPartiallyOrderedList {
  items : list T;
  _partiallyOrdered : bool;
  _partiallyOrdered_true : _partiallyOrdered = true
}.
Arguments mkPartiallyOrderedList {T} _ _ _.
Arguments items {T} _.
Arguments _partiallyOrdered {T} _.
Arguments _partiallyOrdered_true {T} _.

(** A [PartiallyOrderedList<T>] is assignable to an [Array<T>]. *)
Definition toArray {T : Type} (l : PartiallyOrderedList T) : list T := items l.

Definition branded {T : Type} (xs : list T) : PartiallyOrderedList T :=
  mkPartiallyOrderedList xs true eq_refl.

(** [map(callbackfn)]: the callback receives the value, its index and the
    list itself. *)
Definition map {T U : Type} (l : PartiallyOrderedList T)
    (callbackfn : T → nat → PartiallyOrderedList T → U)
    : PartiallyOrderedList U :=
  branded (imap (λ index value, callbackfn value index l) (items l)).

(** The bound that [slice] computes from a relative index: a negative one
    counts from the end, and both are clamped to [0 .. len]. *)
Definition relativeIndex (len rel : Z) : Z :=
  if (rel <? 0)%Z then Z.max (len + rel) 0 else Z.min rel len.

(** [slice(start?, end?)]; an omitted argument is [None]. *)
Definition slice {T : Type} (l : PartiallyOrderedList T)
    (start end_ : option Z) : PartiallyOrderedList T :=
  let len := Z.of_nat (length (items l)) in
  let k := relativeIndex len (default 0%Z start) in
  let final := relativeIndex len (default len end_) in
  let count := Z.max (final - k) 0 in
  branded (take (Z.to_nat count) (drop (Z.to_nat k) (items l))).

End POL.

(** * [isDefined] *)

(** A value of type [T | undefined | null]. *)
Inductive Nullable (T : Type) : Type :=
  | undefined
  | null
  | defined (value : T).
Arguments undefined {T}.
Arguments null {T}.
Arguments defined {T} _.

(** [value !== undefined] and [value !== null]. *)
Definition notUndefined {T : Type} (value : Nullable T) : bool :=
  match value with undefined => false | _ => true end.

Definition notNull {T : Type} (value : Nullable T) : bool :=
  match value with null => false | _ => true end.

Definition isDefined {T : Type} (value : Nullable T) : bool :=
  notUndefined value && notNull value.

(** * Strings *)

(** A JavaScript string is a sequence of UTF-16 code units. *)
Definition JsString : Type := list N.

Definition codeUnit (a : Ascii.ascii) : N := Ascii.N_of_ascii a.

Fixpoint js (s : string) : JsString :=
  match s with
  | String.EmptyString => []
  | String.String a s' => codeUnit a :: js s'
  end.

(** * [resolveFileWithPostfixes] *)

Definition AbsoluteFsPath : Type := JsString.

(** The part of a [Stats] object that is used. *)
Record FileStats : Type := { isFile : bool }.

(** The part of the [FileSystem] interface that is used; [exists_] is its
    method [exists]. *)
Record FileSystem : Type := {
  exists_ : AbsoluteFsPath → bool;
  stat : AbsoluteFsPath → FileStats
}.

Section Resolve.

(** [absoluteFrom] of [ngtsc/file_system] turns a rooted path string into
    an [AbsoluteFsPath]. *)
Variable absoluteFrom : JsString → AbsoluteFsPath.

Fixpoint resolveFileWithPostfixes (fs : FileSystem) (path : AbsoluteFsPath)
    (postFixes : list JsString) : option AbsoluteFsPath :=
  match postFixes with
  | [] => None
  | postFix :: rest =>
      let testPath := absoluteFrom (path ++ postFix) in
      if exists_ fs testPath && isFile (stat fs testPath) then Some testPath
      else resolveFileWithPostfixes fs path rest
  end.

(** The condition of the loop for one postfix. *)
Definition isExistingFile (fs : FileSystem) (path : AbsoluteFsPath)
    (postFix : JsString) : bool :=
  exists_ fs (absoluteFrom (path ++ postFix))
  && isFile (stat fs (absoluteFrom (path ++ postFix))).

End Resolve.

(** * Regular expressions and [stripExtension] *)

(** The fragment of regular expressions of [/\..+$/]: a sequence of terms,
    each a single-character atom, a greedy [+] of one, or the assertion
    [$] (without the [m] flag: the end of the input). *)
Inductive Atom : Type :=
  | Lit (c : N)
  | Dot.

Inductive Term : Type :=
  | One (a : Atom)
  | Plus (a : Atom)
  | EndOfInput.

Definition isLineTerminator (c : N) : bool :=
  (c =? 10)%N || (c =? 13)%N || (c =? 8232)%N || (c =? 8233)%N.

(** Without the [s] flag [.] matches any code unit but a line terminator. *)
Definition atomMatches (a : Atom) (c : N) : bool :=
  match a with
  | Lit c' => (c =? c')%N
  | Dot => negb (isLineTerminator c)
  end.

(** Backtracking match of a pattern at the start of [s]; the result is the
    input left after the match.  A [+] first takes as many characters as
    it can and gives them back one by one while the rest fails. *)
Fixpoint matchHere (p : list Term) : JsString → option JsString :=
  match p with
  | [] => λ s, Some s
  | One a :: p' => λ s,
      match s with
      | c :: s' => if atomMatches a c then matchHere p' s' else None
      | [] => None
      end
  | EndOfInput :: p' => λ s,
      match s with
      | [] => matchHere p' []
      | _ :: _ => None
      end
  | Plus a :: p' => λ s,
      match s with
      | c :: s' =>
          if atomMatches a c then
            (fix more (s : JsString) : option JsString :=
               match s with
               | c :: s' =>
                   if atomMatches a c then
                     match more s' with
                     | Some r => Some r
                     | None => matchHere p' s
                     end
                   else matchHere p' s
               | [] => matchHere p' s
               end) s'
          else None
      | [] => None
      end
  end.

(** [s.replace(p, replacement)] for a pattern without the [g] flag and a
    replacement without [$]: the leftmost match is replaced. *)
Fixpoint replace (p : list Term) (replacement : JsString) (s : JsString)
    : JsString :=
  match matchHere p s with
  | Some rest => replacement ++ rest
  | None =>
      match s with
      | [] => []
      | c :: s' => c :: replace p replacement s'
      end
  end.

Definition fullStop : N := 46.

Definition stripExtension (fileName : JsString) : JsString :=
  replace [One (Lit fullStop); Plus Dot; EndOfInput] [] fileName.

(** [fileName] is [pre], a full stop and [ext], where [ext] is not empty
    and holds no line terminator: what [/\..+$/] matches at [pre]. *)
Definition extensionAt (fileName pre ext : JsString) : Prop :=
  fileName = pre ++ fullStop :: ext
  ∧ ext ≠ []
  ∧ Forall (λ c, isLineTerminator c = false) ext.

Definition startsWithExtension (s : JsString) : bool :=
  match s with
  | c :: (_ :: _) as ext =>
      (c =? fullStop)%N && forallb (λ c, negb (isLineTerminator c)) ext
  | _ => false
  end.

(** * The scenario of the specification

    The tree [A(B(D), C)], as a tree of names and as a store in which the
    nodes [A], [B], [C], [D] are the references 0, 1, 2, 3. *)
Module Scenario.

Definition D : Tree.Node string := Tree.mkNode "D"%string [].
Definition B : Tree.Node string := Tree.mkNode "B"%string [D].
Definition C : Tree.Node string := Tree.mkNode "C"%string [].
Definition A : Tree.Node string := Tree.mkNode "A"%string [B; C].

Definition isNamed (name : string) (n : Tree.Node string) : bool :=
  bool_decide (Tree.payload n = name).

Definition kids (table : nat → list nat) (r : nat) : list nat := table r.

Definition table : nat → list nat :=
  λ r, match r with 0 => [1; 2] | 1 => [3] | _ => [] end.

Definition shape : Tree.Node nat :=
  Tree.mkNode 0 [Tree.mkNode 1 [Tree.mkNode 3 []]; Tree.mkNode 2 []].

(** A store in which node 0 is its own child. *)
Definition loop : nat → list nat := λ _, [0].

Definition isRef (k : nat) : @Store.Test (nat → list nat) nat :=
  λ r w, (bool_decide (r = k), w).

Definition never : @Store.Test (nat → list nat) nat := λ _ w, (false, w).
Definition always : @Store.Test (nat → list nat) nat := λ _ w, (true, w).

(** A predicate with an effect: it removes the children of the node it
    is asked about. *)
Definition prune : @Store.Test (nat → list nat) nat :=
  λ r w, (bool_decide (w r = []), λ r', if bool_decide (r' = r) then [] else w r').

End Scenario.

(** * The other functions of the file *)

(** ** Nodes in pre-order *)

(** The nodes of a tree, a node before its children. *)
Fixpoint preorder {A : Type} (n : Tree.Node A) : list (Tree.Node A) :=
  match n with
  | Tree.mkNode _ cs => n :: (cs ≫= preorder)
  end.

(** ** Regular expressions with alternatives

    The regular expressions of [isRelativePath] and [stripDollarSuffix]
    need more than the fragment above: alternatives, an optional part,
    the assertion [^] and the class [\d]. *)
Module RegExp.

Inductive CharSet : Type :=
  | Single (a : Atom)
  | Digit.

Definition isDigit (c : N) : bool := (48 <=? c)%N && (c <=? 57)%N.

Definition charMatches (cs : CharSet) (c : N) : bool :=
  match cs with
  | Single a => atomMatches a c
  | Digit => isDigit c
  end.

Inductive Pattern : Type :=
  | Char (cs : CharSet)
  | Seq (p q : Pattern)
  | Alt (p q : Pattern)
  | Optional (p : Pattern)
  | OneOrMore (cs : CharSet)
  | AssertStart
  | AssertEnd.

(** Backtracking match of [p] at index [i], where [s] is the input from
    [i] on, followed by the continuation [k].  The first alternative is
    tried first, an optional part is first taken, [+] is greedy; without
    the [m] flag [^] holds at index 0 only and [$] at the end only. *)
Fixpoint run (p : Pattern) (k : nat → JsString → option JsString)
    (i : nat) (s : JsString) : option JsString :=
  match p with
  | Char cs =>
      match s with
      | c :: s' => if charMatches cs c then k (S i) s' else None
      | [] => None
      end
  | Seq p q => run p (run q k) i s
  | Alt p q =>
      match run p k i s with
      | Some r => Some r
      | None => run q k i s
      end
  | Optional p =>
      match run p k i s with
      | Some r => Some r
      | None => k i s
      end
  | OneOrMore cs =>
      match s with
      | c :: s' =>
          if charMatches cs c then
            (fix more (j : nat) (s : JsString) : option JsString :=
               match s with
               | c :: s' =>
                   if charMatches cs c then
                     match more (S j) s' with
                     | Some r => Some r
                     | None => k j s
                     end
                   else k j s
               | [] => k j s
               end) (S i) s'
          else None
      | [] => None
      end
  | AssertStart => if bool_decide (i = 0) then k i s else None
  | AssertEnd =>
      match s with
      | [] => k i s
      | _ :: _ => None
      end
  end.

(** The input left after a match of [p] at index [i]. *)
Definition matchAt (p : Pattern) (i : nat) (s : JsString) : option JsString :=
  run p (λ _ rest, Some rest) i s.

(** [p.test(s)], from index [i] on: is there a match at some index? *)
Fixpoint test (p : Pattern) (i : nat) (s : JsString) : bool :=
  match matchAt p i s with
  | Some _ => true
  | None =>
      match s with
      | [] => false
      | _ :: s' => test p (S i) s'
      end
  end.

(** [s.replace(p, replacement)], from index [i] on, for a pattern without
    the [g] flag and a replacement without [$]. *)
Fixpoint replace (p : Pattern) (replacement : JsString) (i : nat)
    (s : JsString) : JsString :=
  match matchAt p i s with
  | Some rest => replacement ++ rest
  | None =>
      match s with
      | [] => []
      | c :: s' => c :: replace p replacement (S i) s'
      end
  end.

End RegExp.

Definition solidus : N := 47.
Definition dollar : N := 36.

(** [/^\/|^\.\.?($|\/)/.test(path)] *)
Definition isRelativePath (path : JsString) : bool :=
  RegExp.test
    (RegExp.Alt
       (RegExp.Seq RegExp.AssertStart (RegExp.Char (RegExp.Single (Lit solidus))))
       (RegExp.Seq RegExp.AssertStart
          (RegExp.Seq (RegExp.Char (RegExp.Single (Lit fullStop)))
             (RegExp.Seq
                (RegExp.Optional (RegExp.Char (RegExp.Single (Lit fullStop))))
                (RegExp.Alt RegExp.AssertEnd
                   (RegExp.Char (RegExp.Single (Lit solidus))))))))
    0 path.

(** [value.replace(/\$\d+$/, '')] *)
Definition stripDollarSuffix (value : JsString) : JsString :=
  RegExp.replace
    (RegExp.Seq (RegExp.Char (RegExp.Single (Lit dollar)))
       (RegExp.Seq (RegExp.OneOrMore RegExp.Digit) RegExp.AssertEnd))
    [] 0 value.

(** Does [s] start with [$] and at least one digit, and hold digits only
    after the [$]? *)
Definition startsWithDollarSuffix (s : JsString) : bool :=
  match s with
  | c :: (_ :: _) as ds => (c =? dollar)%N && forallb RegExp.isDigit ds
  | _ => false
  end.

(** ** [getOriginalSymbol] *)

(** The bitwise operators of JavaScript work on 32-bit integers: an
    operand is first reduced to the signed 32-bit integer with the same
    low 32 bits, and [<<] uses the low five bits of its right operand. *)
Definition toInt32 (n : Z) : Z :=
  ((n + 2147483648) mod 4294967296 - 2147483648)%Z.

Definition shiftLeft (a k : Z) : Z :=
  toInt32 (Z.shiftl (toInt32 a) (k mod 32)).

Definition bitAnd (a b : Z) : Z :=
  toInt32 (Z.land (toInt32 a) (toInt32 b)).

Section OriginalSymbol.
Context {Symbol : Type}.

(** [symbol.flags], an integer. *)
Variable flags : Symbol → Z.

(** [ts.SymbolFlags.Alias] is one bit of the flags, [1 << aliasBit]. *)
Variable aliasBit : Z.

Definition SymbolFlags_Alias : Z := shiftLeft 1 aliasBit.

(** A number is truthy when it is not zero. *)
Definition truthy (n : Z) : bool := negb (n =? 0)%Z.

(** The function that [getOriginalSymbol(checker)] returns;
    [getAliasedSymbol] is the method of [checker]. *)
Definition getOriginalSymbol (getAliasedSymbol : Symbol → Symbol)
    (symbol : Symbol) : Symbol :=
  if truthy (bitAnd SymbolFlags_Alias (flags symbol))
  then getAliasedSymbol symbol
  else symbol.

End OriginalSymbol.

(** ** [resolveFileWithPostfixes] on a file system that may throw

    [fs.stat] of a path that does not exist throws; [None] is a call that
    throws. *)
Record ThrowingFileSystem : Type := {
  existsT : AbsoluteFsPath → bool;
  statT : AbsoluteFsPath → option FileStats
}.

Inductive Outcome (R : Type) : Type :=
  | Returned (result : R)
  | Thrown.
Arguments Returned {R} _.
Arguments Thrown {R}.

Section ResolveThrowing.
Variable absoluteFrom : JsString → AbsoluteFsPath.

(** [fs.exists(testPath) && fs.stat(testPath).isFile()]: [stat] is called
    only when [exists] returned true. *)
Fixpoint resolveFileWithPostfixesT (fs : ThrowingFileSystem)
    (path : AbsoluteFsPath) (postFixes : list JsString)
    : Outcome (option AbsoluteFsPath) :=
  match postFixes with
  | [] => Returned None
  | postFix :: rest =>
      let testPath := absoluteFrom (path ++ postFix) in
      if existsT fs testPath then
        match statT fs testPath with
        | None => Thrown
        | Some stats =>
            if isFile stats then Returned (Some testPath)
            else resolveFileWithPostfixesT fs path rest
        end
      else resolveFileWithPostfixesT fs path rest
  end.

(** The file system that answers as [fs] does where [fs] answers. *)
Definition answers (fs : ThrowingFileSystem) : FileSystem :=
  {| exists_ := existsT fs;
     stat := λ p, default {| isFile := false |} (statT fs p) |}.

End ResolveThrowing.

(** * Properties of the tree search *)

Section TreeFacts.
Context {A : Type}.
Implicit Types (n t : Tree.Node A) (cs : list (Tree.Node A)).
Implicit Types (test : Tree.Node A → bool) (p q : Tree.Path).

(** Induction on a tree, with the hypothesis for every child. *)
Lemma Node_ind (P : Tree.Node A → Prop) :
  (∀ a cs, Forall P cs → P (Tree.mkNode a cs)) → ∀ n, P n.
Proof.
  intros step. fix IH 1. intros [a cs]. apply step.
  induction cs as [|c cs IHcs]; constructor; [apply IH | exact IHcs].
Qed.

Lemma positions_unfold a cs :
  Tree.positions (Tree.mkNode a cs) = [] :: Tree.positions_below 0 cs.
Proof. reflexivity. Qed.

Lemma matchPaths_unfold test a cs :
  Tree.matchPaths test (Tree.mkNode a cs) =
    if test (Tree.mkNode a cs) then [[]]
    else Tree.matchPaths_below test 0 cs.
Proof.
  simpl. destruct (test _); [done |]. generalize 0.
  induction cs as [|c cs IH]; intros i; simpl; [done | by rewrite IH].
Qed.

(** The visitor only appends to the array it is given. *)
Lemma findAllVisitor_app test n nodes :
  Tree.findAllVisitor test n nodes = nodes ++ Tree.findAll n test.
Proof.
  unfold Tree.findAll. revert nodes.
  induction n as [a cs IH] using Node_ind; intros nodes; simpl.
  destruct (test _); [done |].
  unfold Tree.forEachChild; simpl.
  assert (∀ acc, fold_left (λ acc child, Tree.findAllVisitor test child acc)
                   cs acc
                 = acc ++ fold_left
                     (λ acc child, Tree.findAllVisitor test child acc) cs [])
    as Hfold; [| apply Hfold].
  induction IH as [|c cs Hc _ IHcs]; intros acc; simpl.
  - by rewrite app_nil_r.
  - rewrite IHcs, (IHcs (Tree.findAllVisitor _ _ [])), Hc.
    by rewrite app_assoc.
Qed.

Lemma findAll_unfold test a cs :
  Tree.findAll (Tree.mkNode a cs) test =
    if test (Tree.mkNode a cs) then [Tree.mkNode a cs]
    else cs ≫= (λ c, Tree.findAll c test).
Proof.
  unfold Tree.findAll at 1; simpl. destruct (test _); [done |].
  unfold Tree.forEachChild; simpl.
  change (cs ≫= (λ c, Tree.findAll c test))
    with ([] ++ (cs ≫= (λ c, Tree.findAll c test))).
  generalize (@nil (Tree.Node A)).
  induction cs as [|c cs IH]; intros acc; simpl.
  - by rewrite app_nil_r.
  - by rewrite IH, findAllVisitor_app, app_assoc.
Qed.

Lemma subtree_at_cons a cs i c p :
  cs !! i = Some c →
  Tree.subtree_at (Tree.mkNode a cs) (i :: p) = Tree.subtree_at c p.
Proof. intros Hc; simpl. by rewrite Hc. Qed.

Lemma elem_of_matchPaths_below test i cs p :
  p ∈ Tree.matchPaths_below test i cs ↔
  ∃ j c p', p = (i + j) :: p' ∧ cs !! j = Some c ∧ p' ∈ Tree.matchPaths test c.
Proof.
  revert i. induction cs as [|c cs IH]; intros i; simpl.
  - split; [by intros ?%elem_of_nil | by intros (j & ? & ? & _ & ? & _)].
  - rewrite elem_of_app, list_elem_of_fmap, IH. split.
    + intros [(p' & -> & Hp') | (j & c' & p' & -> & Hj & Hp')].
      * exists 0, c, p'. by rewrite Nat.add_0_r.
      * exists (S j), c', p'. by rewrite Nat.add_succ_r.
    + intros ([|j] & c' & p' & -> & Hj & Hp'); simpl in Hj.
      * left. exists p'. rewrite Nat.add_0_r. by simplify_eq.
      * right. exists j, c', p'. by rewrite Nat.add_succ_r.
Qed.

Lemma elem_of_positions_below i cs p :
  p ∈ Tree.positions_below i cs ↔
  ∃ j c p', p = (i + j) :: p' ∧ cs !! j = Some c ∧ p' ∈ Tree.positions c.
Proof.
  revert i. induction cs as [|c cs IH]; intros i; simpl.
  - split; [by intros ?%elem_of_nil | by intros (j & ? & ? & _ & ? & _)].
  - rewrite elem_of_app, list_elem_of_fmap, IH. split.
    + intros [(p' & -> & Hp') | (j & c' & p' & -> & Hj & Hp')].
      * exists 0, c, p'. by rewrite Nat.add_0_r.
      * exists (S j), c', p'. by rewrite Nat.add_succ_r.
    + intros ([|j] & c' & p' & -> & Hj & Hp'); simpl in Hj.
      * left. exists p'. rewrite Nat.add_0_r. by simplify_eq.
      * right. exists j, c', p'. by rewrite Nat.add_succ_r.
Qed.

(** [positions] lists exactly the positions of the tree, each once. *)
Lemma elem_of_positions t p :
  p ∈ Tree.positions t ↔ is_Some (Tree.subtree_at t p).
Proof.
  revert p. induction t as [a cs IH] using Node_ind; intros p.
  rewrite positions_unfold, elem_of_cons, elem_of_positions_below.
  rewrite Forall_lookup in IH. split.
  - intros [-> | (j & c & p' & -> & Hj & Hp')]; [by eexists |].
    rewrite (subtree_at_cons _ _ _ c) by done. by apply (IH j c).
  - destruct p as [|j p']; [by left |]. simpl.
    destruct (cs !! j) as [c|] eqn:Hj; [| by intros [? ?]].
    intros Hp'. right. exists j, c, p'. split_and!; [done..|].
    by apply (IH j c).
Qed.

Lemma NoDup_positions t : NoDup (Tree.positions t).
Proof.
  induction t as [a cs IH] using Node_ind.
  rewrite positions_unfold. apply NoDup_cons. split.
  - by intros (? & ? & ? & ? & _)%elem_of_positions_below.
  - generalize 0. induction IH as [|c cs Hc _ IHcs]; intros i; simpl.
    + constructor.
    + apply NoDup_app. split_and!.
      * apply (NoDup_fmap_2 _), Hc.
      * intros p (p' & -> & _)%list_elem_of_fmap.
        intros (j & ? & ? & ? & _)%elem_of_positions_below.
        simplify_eq; lia.
      * apply IHcs.
Qed.

(** The recorded nodes are the nodes at the recorded positions. *)
Lemma findAll_matchPaths test t :
  Tree.subtree_at t <$> Tree.matchPaths test t = Some <$> Tree.findAll t test.
Proof.
  induction t as [a cs IH] using Node_ind.
  rewrite matchPaths_unfold, findAll_unfold.
  destruct (test _); [done |].
  assert (∀ pre,
    Tree.subtree_at (Tree.mkNode a (pre ++ cs))
      <$> Tree.matchPaths_below test (length pre) cs
    = Some <$> (cs ≫= (λ c, Tree.findAll c test))) as Hbelow.
  2: { apply (Hbelow []). }
  induction IH as [|c cs Hc _ IHcs]; intros pre; simpl; [done |].
  rewrite !fmap_app, <- Hc, <- list_fmap_compose. f_equal.
  - apply list_fmap_ext. intros _ p _. simpl.
    by rewrite list_lookup_middle.
  - specialize (IHcs (pre ++ [c])).
    by rewrite length_app, Nat.add_1_r, <- app_assoc in IHcs.
Qed.

(** A position is recorded exactly when its node passes the test and no
    node above it does. *)
Lemma elem_of_matchPaths test t p :
  p ∈ Tree.matchPaths test t ↔
  (∃ n, Tree.subtree_at t p = Some n ∧ test n = true) ∧
  (∀ q m, Tree.descendant p q → Tree.subtree_at t q = Some m → test m = false).
Proof.
  revert p. induction t as [a cs IH] using Node_ind; intros p.
  rewrite Forall_lookup in IH. rewrite matchPaths_unfold.
  destruct (test (Tree.mkNode a cs)) eqn:Ht.
  - rewrite list_elem_of_singleton. split.
    + intros ->. split; [by eexists |].
      intros q m (d & Hd & Heq) _. symmetry in Heq.
      by apply app_eq_nil in Heq as [_ ?].
    + intros [_ Habove]. destruct p as [|i p]; [done |].
      rewrite (Habove [] (Tree.mkNode a cs)) in Ht; [done | | done].
      by exists (i :: p).
  - rewrite elem_of_matchPaths_below. split.
    + intros (j & c & p' & -> & Hj & Hp'). simpl in *.
      apply (IH j c Hj) in Hp' as [Hn Habove].
      rewrite Hj. split; [done |].
      intros [|i q] m (d & Hd & Heq); simpl.
      * intros ?; by simplify_eq.
      * injection Heq as <- ->. rewrite Hj. apply Habove. by exists d.
    + intros [(n & Hn & Htest) Habove]. destruct p as [|j p'].
      { simpl in Hn. simplify_eq. congruence. }
      simpl in Hn. destruct (cs !! j) as [c|] eqn:Hj; [| done].
      exists j, c, p'. split_and!; [done..|].
      apply (IH j c Hj). split; [by exists n |].
      intros q m (d & Hd & ->) Hq. apply (Habove (j :: q)).
      * by exists d.
      * simpl. by rewrite Hj.
Qed.

(** The recorded positions come in pre-order. *)
Lemma matchPaths_sublist test t :
  Tree.matchPaths test t `sublist_of` Tree.positions t.
Proof.
  induction t as [a cs IH] using Node_ind.
  rewrite matchPaths_unfold, positions_unfold.
  destruct (test _).
  - apply sublist_skip, sublist_nil_l.
  - apply sublist_cons. generalize 0.
    induction IH as [|c cs Hc _ IHcs]; intros i; simpl; [done |].
    apply sublist_app; [by apply fmap_sublist | apply IHcs].
Qed.

(** C1: [findAll] returns the nodes at a list [ps] of positions such that
    every returned node satisfies the predicate, [ps] follows the
    depth-first pre-order enumeration of the positions of the tree, no
    position of [ps] lies below another one, and [ps] holds exactly the
    positions whose node satisfies the predicate while no node above it
    does (a matching node is recorded and its subtree is skipped). *)
Theorem findAll_preorder_no_nested_match test t :
  ∃ ps : list Tree.Path,
    Tree.subtree_at t <$> ps = Some <$> Tree.findAll t test
    ∧ Forall (λ n, test n = true) (Tree.findAll t test)
    ∧ ps `sublist_of` Tree.positions t
    ∧ (∀ p q, p ∈ ps → q ∈ ps → ¬ Tree.descendant q p)
    ∧ (∀ p, p ∈ ps ↔
         (∃ n, Tree.subtree_at t p = Some n ∧ test n = true)
         ∧ ∀ q m, Tree.descendant p q →
                  Tree.subtree_at t q = Some m → test m = false).
Proof.
  exists (Tree.matchPaths test t).
  pose proof (findAll_matchPaths test t) as Hnodes.
  split_and!.
  - done.
  - apply Forall_forall. intros n Hn.
    assert (Some n ∈ Tree.subtree_at t <$> Tree.matchPaths test t) as Hin.
    { rewrite Hnodes. by apply list_elem_of_fmap_2. }
    apply list_elem_of_fmap in Hin as (p & Hp & Hin).
    apply elem_of_matchPaths in Hin as [(n' & Hn' & Htest) _].
    congruence.
  - apply matchPaths_sublist.
  - intros p q Hp Hq Hdesc.
    apply elem_of_matchPaths in Hp as [(n & Hn & Htest) _].
    apply elem_of_matchPaths in Hq as [_ Habove].
    specialize (Habove p n Hdesc Hn). congruence.
  - apply elem_of_matchPaths.
Qed.

End TreeFacts.

(** * Properties of the traversal over a store *)

Section StoreFacts.
Context {World Ref : Type}.
Variable childRefs : World → Ref → list Ref.
Implicit Types (test : @Store.Test World Ref) (σ : @Store.Frame World Ref).
Implicit Types (w : World) (n root : Ref) (fuel : nat).

Local Abbreviation visitor := (Store.findAllVisitor childRefs).

(** More fuel does not change a finished run. *)
Lemma findAllVisitor_fuel_mono test fuel fuel' n σ σ' :
  fuel ≤ fuel' →
  visitor fuel test n σ = Some σ' →
  visitor fuel' test n σ = Some σ'.
Proof.
  revert fuel' n σ σ'.
  induction fuel as [|fuel IH]; intros fuel' n σ σ' Hle; [done |].
  destruct fuel' as [|fuel']; [lia |]. simpl.
  destruct (test n (Store.world σ)) as [[] w]; [done |].
  generalize (Store.mkFrame w (Store.nodes σ) (Store.visited σ ++ [n])).
  induction (childRefs w n) as [|c cs IHcs]; intros τ; simpl; [done |].
  destruct (visitor fuel test c τ) as [τ'|] eqn:Hc; [| done].
  rewrite (IH fuel' c τ τ') by (done || lia). apply IHcs.
Qed.

(** With a pure predicate a run leaves the world as it was. *)
Lemma findAllVisitor_pure_world test fuel n σ σ' :
  Store.pure test →
  visitor fuel test n σ = Some σ' →
  Store.world σ' = Store.world σ.
Proof.
  intros Hpure. revert n σ σ'.
  induction fuel as [|fuel IH]; intros n σ σ'; simpl; [done |].
  pose proof (Hpure n (Store.world σ)) as Hw.
  destruct (test n (Store.world σ)) as [b w]; simpl in Hw; subst w.
  destruct b; [by intros [= <-] |].
  set (τ := Store.mkFrame _ _ _).
  change (Store.world σ) with (Store.world τ) at 2.
  generalize τ. clear τ.
  induction (childRefs _ n) as [|c cs IHcs]; intros τ; simpl.
  - by intros [= <-].
  - destruct (visitor fuel test c τ) as [τ'|] eqn:Hc; [| done].
    intros Hrest. rewrite <- (IH _ _ _ Hc). by apply IHcs.
Qed.

Lemma height_child (c : Tree.Node Ref) (cs : list (Tree.Node Ref)) :
  c ∈ cs → Tree.height c ≤ max_list_with Tree.height cs.
Proof.
  induction cs as [|c' cs IH]; simpl; [by intros ?%elem_of_nil |].
  intros [-> | Hin%IH]%elem_of_cons; lia.
Qed.

Lemma visits_length (f : Tree.Node Ref → bool) t :
  1 ≤ length (Tree.visits f t) ≤ Tree.size t.
Proof.
  induction t as [a cs IH] using Node_ind; simpl.
  destruct (f _); simpl; [lia |].
  enough (length (cs ≫= Tree.visits f) ≤ sum_list_with Tree.size cs) by lia.
  induction IH as [|c cs Hc _ IHcs]; csimpl; [done |].
  rewrite length_app. lia.
Qed.

(** On a world that unfolds into a finite tree, the run is the search of
    that tree. *)
Lemma findAllVisitor_unfolds test w t :
  Store.pure test →
  ∀ fuel n σ,
    Store.unfolds childRefs w n t →
    Tree.height t ≤ fuel →
    Store.world σ = w →
    visitor fuel test n σ =
      Some (Store.mkFrame w
              (Store.nodes σ
                 ++ (Tree.payload <$> Tree.findAll t (Store.testIn test w)))
              (Store.visited σ
                 ++ (Tree.payload <$> Tree.visits (Store.testIn test w) t))).
Proof.
  intros Hpure. induction t as [a cs IH] using Node_ind.
  intros fuel n σ Hunf Hfuel Hσ.
  inversion Hunf as [r cs' Hkids Hcs]; subst r cs' n.
  destruct fuel as [|fuel]; [simpl in Hfuel; lia |].
  rewrite findAll_unfold. simpl. unfold Store.testIn at 1 3; simpl.
  pose proof (Hpure a w) as Hw. rewrite Hσ.
  destruct (test a w) as [b w']; simpl in *; subst w'.
  destruct b; [done |].
  rewrite Hkids. clear Hkids Hunf.
  assert (∀ c, c ∈ cs → Tree.height c ≤ fuel) as Hh.
  { intros c Hc%height_child. lia. }
  assert (∀ τ, Store.world τ = w →
    Store.forEach (visitor fuel test) (Tree.payload <$> cs) τ =
      Some (Store.mkFrame w
              (Store.nodes τ ++ (Tree.payload <$>
                 cs ≫= λ c, Tree.findAll c (Store.testIn test w)))
              (Store.visited τ ++ (Tree.payload <$>
                 cs ≫= Tree.visits (Store.testIn test w))))) as Hrest.
  { clear Hfuel σ Hσ. revert IH Hcs Hh.
    induction cs as [|c cs IHcs]; intros IH Hcs Hh τ Hτ; csimpl.
    - rewrite !app_nil_r. by destruct τ; simplify_eq/=.
    - apply Forall_cons in IH as [IHc IH].
      apply Forall_cons in Hcs as [Hc Hcs].
      rewrite (IHc fuel _ τ Hc) by (done || apply Hh; left).
      rewrite (IHcs IH Hcs); [| intros; apply Hh; by right | done].
      simpl. by rewrite !fmap_app, !app_assoc. }
  rewrite Hrest by done. simpl.
  by rewrite <- app_assoc.
Qed.

(** On any store, a run with a pure predicate that has ended leaves the
    world as it found it, and a further run from the same root ends with
    the same result. *)
Lemma findAll_pure_rerun test fuel root w σ :
  Store.pure test →
  Store.findAll childRefs fuel root test w = Some σ →
  Store.world σ = w
  ∧ (∀ fuel', fuel ≤ fuel' →
       Store.findAll childRefs fuel' root test (Store.world σ) = Some σ)
  ∧ (∀ fuel' σ',
       Store.findAll childRefs fuel' root test (Store.world σ) = Some σ' →
       Store.nodes σ' = Store.nodes σ ∧ Store.world σ' = w).
Proof.
  intros Hpure Hrun.
  assert (Store.world σ = w) as Hw.
  { by apply (findAllVisitor_pure_world _ _ _ _ _ Hpure) in Hrun. }
  rewrite Hw. split_and!; [done | |].
  - intros fuel' Hle. by apply (findAllVisitor_fuel_mono test fuel).
  - intros fuel' σ' Hrun'. unfold Store.findAll in *.
    apply (findAllVisitor_fuel_mono _ _ (fuel `max` fuel')) in Hrun; [| lia].
    apply (findAllVisitor_fuel_mono _ _ (fuel `max` fuel')) in Hrun'; [| lia].
    by simplify_eq.
Qed.

(** C7: on a store that unfolds into a finite tree [t], [findAll] with a
    pure predicate returns as soon as the fuel covers the height of [t];
    it returns the search of [t], and [findAllVisitor] is invoked at least
    once and at most once per node of [t]. *)
Theorem findAll_terminates test w root t fuel :
  Store.pure test →
  Store.unfolds childRefs w root t →
  Tree.height t ≤ fuel →
  ∃ σ, Store.findAll childRefs fuel root test w = Some σ
       ∧ Store.world σ = w
       ∧ Store.nodes σ
         = Tree.payload <$> Tree.findAll t (Store.testIn test w)
       ∧ 1 ≤ length (Store.visited σ) ≤ Tree.size t.
Proof.
  intros Hpure Hunf Hfuel. unfold Store.findAll.
  rewrite (findAllVisitor_unfolds test w t Hpure fuel root _ Hunf Hfuel)
    by done.
  eexists. split_and!; [done..| |]; simpl; rewrite length_fmap;
    apply visits_length.
Qed.

(** C6: on every finite tree and with every pure predicate, an invocation
    of [findAll] returns and leaves the world, and so the tree and each of
    its nodes, as it found them; a second invocation with the same root
    and predicate returns too, with a result equal to the first, which is
    the search of the tree. *)
Theorem findAll_pure_repeatable test w root t fuel fuel' :
  Store.pure test →
  Store.unfolds childRefs w root t →
  Tree.height t ≤ fuel → Tree.height t ≤ fuel' →
  ∃ σ σ', Store.findAll childRefs fuel root test w = Some σ
          ∧ Store.world σ = w
          ∧ Store.findAll childRefs fuel' root test (Store.world σ) = Some σ'
          ∧ Store.world σ' = w
          ∧ Store.nodes σ' = Store.nodes σ
          ∧ Store.nodes σ
            = Tree.payload <$> Tree.findAll t (Store.testIn test w).
Proof.
  intros Hpure Hunf Hfuel Hfuel'. unfold Store.findAll.
  rewrite (findAllVisitor_unfolds test w t Hpure fuel root _ Hunf Hfuel)
    by done.
  eexists _, _. split; [done |]. split; [done |]. simpl.
  rewrite (findAllVisitor_unfolds test w t Hpure fuel' root _ Hunf Hfuel')
    by done.
  by split_and!.
Qed.

End StoreFacts.

(** On a cyclic store the run does not end, whatever the fuel. *)
Lemma findAll_cyclic_out_of_fuel fuel :
  Store.findAll Scenario.kids fuel 0 Scenario.never Scenario.loop = None.
Proof.
  unfold Store.findAll.
  enough (∀ σ, Store.world σ = Scenario.loop →
    Store.findAllVisitor Scenario.kids fuel Scenario.never 0 σ = None) as H
    by by apply H.
  induction fuel as [|fuel IH]; intros σ Hσ; simpl; [done |].
  rewrite Hσ. change (Scenario.kids Scenario.loop 0) with [0]. simpl.
  by rewrite IH.
Qed.

(** With a predicate that writes, a second run may differ from the first. *)
Lemma findAll_impure_differs :
  Store.nodes <$> Store.findAll Scenario.kids 3 0 Scenario.prune Scenario.table
    = Some []
  ∧ (Store.findAll Scenario.kids 3 0 Scenario.prune Scenario.table
       ≫= λ σ, Store.nodes <$>
           Store.findAll Scenario.kids 3 0 Scenario.prune (Store.world σ))
    = Some [0].
Proof. split; reflexivity. Qed.

Lemma scenario_unfolds :
  Store.unfolds Scenario.kids Scenario.table 0 Scenario.shape.
Proof. repeat (constructor; try reflexivity). Qed.

Lemma findAll_pure_repeatable_witness :
  ∃ σ σ',
    Store.findAll Scenario.kids 3 0 (Scenario.isRef 3) Scenario.table = Some σ
    ∧ Store.world σ = Scenario.table
    ∧ Store.findAll Scenario.kids 5 0 (Scenario.isRef 3) (Store.world σ)
      = Some σ'
    ∧ Store.world σ' = Scenario.table
    ∧ Store.nodes σ' = Store.nodes σ
    ∧ Store.nodes σ
      = Tree.payload <$>
          Tree.findAll Scenario.shape
            (Store.testIn (Scenario.isRef 3) Scenario.table).
Proof.
  apply (findAll_pure_repeatable Scenario.kids (Scenario.isRef 3)
           Scenario.table 0 Scenario.shape 3 5).
  - intros n w. reflexivity.
  - exact scenario_unfolds.
  - vm_compute. lia.
  - vm_compute. lia.
Defined.

Lemma findAll_terminates_witness :
  ∃ σ, Store.findAll Scenario.kids 3 0 (Scenario.isRef 3) Scenario.table
         = Some σ
       ∧ Store.world σ = Scenario.table
       ∧ Store.nodes σ
         = Tree.payload <$>
             Tree.findAll Scenario.shape
               (Store.testIn (Scenario.isRef 3) Scenario.table)
       ∧ 1 ≤ length (Store.visited σ) ≤ Tree.size Scenario.shape.
Proof.
  apply (findAll_terminates Scenario.kids (Scenario.isRef 3) Scenario.table
           0 Scenario.shape 3).
  - intros n w. reflexivity.
  - exact scenario_unfolds.
  - vm_compute. lia.
Defined.

(** The scenario of the specification: searching [A(B(D), C)] for the
    nodes named [D] or [A] returns [A] alone. *)
Example findAll_scenario :
  Tree.findAll Scenario.A
    (λ n, Scenario.isNamed "D" n || Scenario.isNamed "A" n)
  = [Scenario.A].
Proof. reflexivity. Qed.

Lemma findAll_never {A : Type} (test : Tree.Node A → bool) (t : Tree.Node A) :
  (∀ n, test n = false) → Tree.findAll t test = [].
Proof.
  intros Hnever. induction t as [a cs IH] using Node_ind.
  rewrite findAll_unfold, Hnever.
  induction IH as [|c cs Hc _ IHcs]; csimpl; [done |].
  by rewrite Hc, IHcs.
Qed.

(** C2: a predicate that is false on every node yields the empty sequence;
    a predicate that is true on every node yields the root alone, and the
    visitor is invoked on the root and on no other node. *)
Theorem findAll_constant_predicate {A World Ref : Type}
    (never always : Tree.Node A → bool) (t : Tree.Node A)
    (childRefs : World → Ref → list Ref) (alwaysRef : Store.Test)
    (root : Ref) (w : World) (fuel : nat) :
  (∀ n, never n = false) →
  (∀ n, always n = true) →
  (∀ r v, (alwaysRef r v).1 = true) →
  Tree.findAll t never = []
  ∧ Tree.findAll t always = [t]
  ∧ ∃ w', Store.findAll childRefs (S fuel) root alwaysRef w
          = Some (Store.mkFrame w' [root] [root]).
Proof.
  intros Hnever Halways HalwaysRef. split_and!.
  - by apply findAll_never.
  - destruct t as [a cs]. by rewrite findAll_unfold, Halways.
  - unfold Store.findAll; simpl.
    pose proof (HalwaysRef root w) as Hb.
    destruct (alwaysRef root w) as [b w']; simpl in Hb; subst b.
    by exists w'.
Qed.

Lemma findAll_constant_predicate_witness :
  Tree.findAll Scenario.A (λ _, false) = []
  ∧ Tree.findAll Scenario.A (λ _, true) = [Scenario.A]
  ∧ ∃ w', Store.findAll Scenario.kids 1 0 Scenario.always Scenario.table
          = Some (Store.mkFrame w' [0] [0]).
Proof.
  apply (findAll_constant_predicate (λ _, false) (λ _, true) Scenario.A
           Scenario.kids Scenario.always 0 Scenario.table 0);
    intros; reflexivity.
Defined.

(** * Properties of partially ordered lists *)

Section POLFacts.
Context {T : Type}.
Implicit Types l : POL.PartiallyOrderedList T.

(** Two branded lists with the same items are equal. *)
Lemma PartiallyOrderedList_eq l xs : POL.items l = xs → l = POL.branded xs.
Proof. destruct l as [ys b Hb]; simpl. intros <-. by subst b. Qed.

(** C3: [map] returns a partially ordered list of the same length, whose
    element at every position is the callback applied to the element of
    the receiver at that position (with the position and the receiver);
    for a per-element transform [F] the items are [F] applied item by
    item, in the same order; the result carries the brand. *)
Theorem map_pointwise {U : Type} l
    (callbackfn : T → nat → POL.PartiallyOrderedList T → U) :
  length (POL.items (POL.map l callbackfn)) = length (POL.items l)
  ∧ (∀ i, POL.items (POL.map l callbackfn) !! i
          = (λ value, callbackfn value i l) <$> POL.items l !! i)
  ∧ (∀ F : T → U, POL.items (POL.map l (λ value _ _, F value))
                  = F <$> POL.items l)
  ∧ POL._partiallyOrdered (POL.map l callbackfn) = true.
Proof.
  split_and!.
  - apply length_imap.
  - intros i. apply list_lookup_imap.
  - intros F. simpl. apply imap_const.
  - done.
Qed.

Lemma relativeIndex_in_range len i :
  (0 ≤ i ≤ len)%Z → POL.relativeIndex len i = i.
Proof.
  unfold POL.relativeIndex. intros ?. destruct (Z.ltb_spec i 0); lia.
Qed.

(** C4: for a range [i, j) within the list, [slice] returns the items at
    the positions [i] to [j - 1] and nothing else, in order, with the
    brand; the slice of the whole range, with or without its bounds
    written, is equal to the list. *)
Theorem slice_range l (i j : Z) :
  (0 ≤ i ≤ j)%Z → (j ≤ Z.of_nat (length (POL.items l)))%Z →
  length (POL.items (POL.slice l (Some i) (Some j))) = Z.to_nat (j - i)
  ∧ (∀ k, k < Z.to_nat (j - i) →
          POL.items (POL.slice l (Some i) (Some j)) !! k
          = POL.items l !! (Z.to_nat i + k))
  ∧ POL._partiallyOrdered (POL.slice l (Some i) (Some j)) = true
  ∧ POL.slice l (Some 0%Z) (Some (Z.of_nat (length (POL.items l)))) = l
  ∧ POL.slice l None None = l.
Proof.
  intros Hij Hj. unfold POL.slice; simpl.
  rewrite !relativeIndex_in_range by lia.
  replace (Z.max (j - i) 0) with (j - i)%Z by lia.
  split_and!.
  - rewrite length_take, length_drop. lia.
  - intros k Hk. by rewrite lookup_take_lt, lookup_drop.
  - done.
  - symmetry. apply PartiallyOrderedList_eq.
    rewrite Z.sub_0_r, Z.max_l, Nat2Z.id by lia.
    by rewrite drop_0, firstn_all.
  - symmetry. apply PartiallyOrderedList_eq.
    rewrite Z.sub_0_r, Z.max_l, Nat2Z.id by lia.
    by rewrite drop_0, firstn_all.
Qed.

End POLFacts.

(** The scenario of the specification: the first two of three modules. *)
Lemma slice_range_witness :
  let l := POL.branded ["moduleZ"; "moduleY"; "moduleX"]%string in
  POL.items (POL.slice l (Some 0%Z) (Some 2%Z)) = ["moduleZ"; "moduleY"]%string
  ∧ length (POL.items (POL.slice l (Some 0%Z) (Some 2%Z))) = 2
  ∧ POL._partiallyOrdered (POL.slice l (Some 0%Z) (Some 2%Z)) = true.
Proof.
  intros l. split; [reflexivity |].
  pose proof (slice_range l 0 2 ltac:(lia) ltac:(simpl; lia))
    as (Hlen & _ & Htag & _).
  split; [exact Hlen | exact Htag].
Defined.

(** * Properties of [isDefined] *)

(** C8: [isDefined] returns true exactly for a value that is neither
    [undefined] nor [null], and such a value is a value of [T]. *)
Theorem isDefined_spec {T : Type} (value : Nullable T) :
  (isDefined value = true ↔ value ≠ undefined ∧ value ≠ null)
  ∧ (isDefined value = true → ∃ v : T, value = defined v).
Proof.
  destruct value as [| |v]; simpl; split; try split; try done.
  - by intros [? _].
  - by intros [_ ?].
  - by exists v.
Qed.

Example isDefined_values :
  isDefined (defined 0) = true
  ∧ isDefined (@undefined nat) = false
  ∧ isDefined (@null nat) = false.
Proof. by split_and!. Qed.

(** * Properties of [resolveFileWithPostfixes] *)

Section ResolveFacts.
Variable absoluteFrom : JsString → AbsoluteFsPath.
Implicit Types (fs : FileSystem) (path : AbsoluteFsPath).
Implicit Types (postFix : JsString) (postFixes : list JsString).

Local Abbreviation found := (isExistingFile absoluteFrom).

(** C9: the postfixes are tried in the order given.  The result is the
    path made from [path] and the first postfix of the list for which the
    file system reports an existing entry that is a file; it is [null]
    exactly when the list has no such postfix, as when it is empty. *)
Theorem resolveFileWithPostfixes_first fs path postFixes :
  (∀ p, resolveFileWithPostfixes absoluteFrom fs path postFixes = Some p ↔
        ∃ before postFix after,
          postFixes = before ++ postFix :: after
          ∧ Forall (λ q, isExistingFile absoluteFrom fs path q = false) before
          ∧ isExistingFile absoluteFrom fs path postFix = true
          ∧ p = absoluteFrom (path ++ postFix))
  ∧ (resolveFileWithPostfixes absoluteFrom fs path postFixes = None ↔
       Forall (λ q, isExistingFile absoluteFrom fs path q = false) postFixes)
  ∧ resolveFileWithPostfixes absoluteFrom fs path [] = None.
Proof.
  split_and!; [| | done].
  - induction postFixes as [|q qs IH]; intros p; simpl.
    + split; [done |]. intros (before & ? & ? & Heq & _).
      by destruct before.
    + fold (found fs path q). destruct (found fs path q) eqn:Hq.
      * split.
        -- intros [= <-]. by exists [], q, qs.
        -- intros ([|q' before] & postFix & after & Heq & Hbefore & Hfound & ->).
           ++ by simplify_eq/=.
           ++ apply Forall_cons in Hbefore as [Hq' _].
              simplify_eq/=. congruence.
      * rewrite IH. split.
        -- intros (before & postFix & after & -> & Hbefore & Hfound & ->).
           exists (q :: before), postFix, after. split_and!; [done | | done..].
           by constructor.
        -- intros ([|q' before] & postFix & after & Heq & Hbefore & Hfound & ->).
           ++ simplify_eq/=. congruence.
           ++ apply Forall_cons in Hbefore as [_ Hbefore].
              simplify_eq/=. by exists before, postFix, after.
  - induction postFixes as [|q qs IH]; simpl; [done |].
    fold (found fs path q). rewrite Forall_cons.
    destruct (found fs path q).
    + split; [done | by intros [? _]].
    + rewrite IH. split; [done | by intros [_ ?]].
Qed.

End ResolveFacts.

(** A file system with the file [/a/b.d.ts] and the directory [/a/b]:
    the directory is passed over, the file is found. *)
Example resolveFileWithPostfixes_scenario :
  let fs := {| exists_ := λ p, bool_decide (p = js "/a/b.d.ts")
                               || bool_decide (p = js "/a/b");
               stat := λ p, {| isFile := bool_decide (p = js "/a/b.d.ts") |} |} in
  resolveFileWithPostfixes id fs (js "/a/b") [js ""; js ".d.ts"; js "/index.d.ts"]
    = Some (js "/a/b.d.ts")
  ∧ resolveFileWithPostfixes id fs (js "/a/c") [js ""; js ".d.ts"] = None.
Proof. by split. Qed.

(** * Properties of [stripExtension] *)

Section StripFacts.
Implicit Types (s fileName pre ext : JsString).

Local Abbreviation extensionPattern :=
  [One (Lit fullStop); Plus Dot; EndOfInput].

(** The greedy loop of [.+] before [$]: it succeeds, at the end of the
    input, when only characters other than line terminators are left. *)
Lemma more_to_end ext :
  (fix more (s : JsString) : option JsString :=
     match s with
     | c :: s' =>
         if atomMatches Dot c then
           match more s' with
           | Some r => Some r
           | None => matchHere [EndOfInput] s
           end
         else matchHere [EndOfInput] s
     | [] => matchHere [EndOfInput] s
     end) ext
  = if forallb (λ c, negb (isLineTerminator c)) ext then Some [] else None.
Proof.
  induction ext as [|c ext IH]; [done |]. rewrite IH. simpl.
  destruct (isLineTerminator c); simpl; [done |].
  by destruct (forallb _ ext).
Qed.

Lemma matchHere_startsWithExtension s :
  matchHere extensionPattern s
  = if startsWithExtension s then Some [] else None.
Proof.
  destruct s as [|c [|c' ext]]; simpl; [done | by destruct (_ =? _)%N |].
  rewrite more_to_end.
  destruct (c =? fullStop)%N; [| done]. simpl.
  by destruct (isLineTerminator c').
Qed.

Lemma forallb_no_line_terminator ext :
  forallb (λ c, negb (isLineTerminator c)) ext = true
  ↔ Forall (λ c, isLineTerminator c = false) ext.
Proof.
  induction ext as [|c ext IH]; simpl; [done |].
  rewrite andb_true_iff, Forall_cons, IH, negb_true_iff. done.
Qed.

Lemma startsWithExtension_spec s :
  startsWithExtension s = true ↔ ∃ ext, extensionAt s [] ext.
Proof.
  unfold extensionAt. destruct s as [|c [|c' ext]]; simpl.
  - split; [done | by intros (? & ? & _)].
  - split; [done |]. intros (? & ? & ? & _). by simplify_eq.
  - rewrite andb_true_iff, N.eqb_eq.
    change (negb (isLineTerminator c') && forallb _ ext)
      with (forallb (λ c, negb (isLineTerminator c)) (c' :: ext)).
    rewrite forallb_no_line_terminator. split.
    + intros [-> Hext]. by exists (c' :: ext).
    + by intros (ext' & [= -> <-] & _ & Hext).
Qed.

Lemma replace_unfold p replacement s :
  replace p replacement s =
    match matchHere p s with
    | Some rest => replacement ++ rest
    | None =>
        match s with
        | [] => []
        | c :: s' => c :: replace p replacement s'
        end
    end.
Proof. by destruct s. Qed.

Lemma extensionAt_cons c s pre ext :
  extensionAt (c :: s) (c :: pre) ext ↔ extensionAt s pre ext.
Proof.
  unfold extensionAt. split.
  - intros ([= ->] & ? & ?). done.
  - intros (-> & ? & ?). done.
Qed.

(** C10, amended: [stripExtension] cuts the name at the first full stop
    that is followed by at least one character and by no line terminator
    up to the end of the name, and returns the name unchanged when it has
    no such full stop. *)
Theorem stripExtension_first_extension fileName :
  (∀ pre ext,
     extensionAt fileName pre ext →
     (∀ pre' ext', extensionAt fileName pre' ext' → length pre ≤ length pre') →
     stripExtension fileName = pre)
  ∧ ((∀ pre ext, ¬ extensionAt fileName pre ext) →
     stripExtension fileName = fileName).
Proof.
  unfold stripExtension. split.
  - intros pre. revert fileName.
    induction pre as [|c pre IH]; intros s ext Hat Hfirst;
      rewrite replace_unfold, matchHere_startsWithExtension.
    + assert (startsWithExtension s = true) as ->; [| done].
      apply startsWithExtension_spec. by exists ext.
    + destruct (startsWithExtension s) eqn:Hs.
      { apply startsWithExtension_spec in Hs as [ext' Hat'].
        apply Hfirst in Hat'. simpl in Hat'. lia. }
      destruct Hat as (-> & Hext & Hlt). simpl. f_equal.
      apply (IH _ ext); [done |].
      intros pre' ext' Hat'%(extensionAt_cons c).
      apply Hfirst in Hat'. simpl in Hat'. lia.
  - induction fileName as [|c s IH]; intros Hnone;
      rewrite replace_unfold, matchHere_startsWithExtension.
    + done.
    + destruct (startsWithExtension (c :: s)) eqn:Hs.
      { apply startsWithExtension_spec in Hs as [ext Hat].
        by apply Hnone in Hat. }
      f_equal. apply IH. intros pre ext Hat%(extensionAt_cons c).
      by apply Hnone in Hat.
Qed.

End StripFacts.

Example stripExtension_dotted : stripExtension (js "a.b.c") = js "a".
Proof. reflexivity. Qed.

Example stripExtension_trailing_stop : stripExtension (js "a.") = js "a.".
Proof. reflexivity. Qed.

Example stripExtension_without_stop : stripExtension (js "abc") = js "abc".
Proof. reflexivity. Qed.

(** The name [a.b], a line feed, [c]: its first full stop is followed by
    characters, and nothing is removed. *)
Lemma stripExtension_line_terminator_kept :
  ¬ (∀ fileName pre ext,
       fileName = pre ++ fullStop :: ext →
       fullStop ∉ pre →
       ext ≠ [] →
       stripExtension fileName = pre).
Proof.
  intros Hclaim.
  specialize (Hclaim (js "a.b" ++ [10%N] ++ js "c") (js "a")
                (js "b" ++ [10%N] ++ js "c") eq_refl).
  assert (stripExtension (js "a.b" ++ [10%N] ++ js "c") = js "a") as Hno.
  { apply Hclaim; [| done]. by intros [=]%list_elem_of_singleton. }
  vm_compute in Hno. discriminate Hno.
Qed.

Lemma stripExtension_first_extension_witness :
  stripExtension (js "a.b.c") = js "a"
  ∧ stripExtension (js "a.b" ++ [10%N] ++ js "c.d")
    = js "a.b" ++ [10%N] ++ js "c".
Proof.
  split.
  - apply (stripExtension_first_extension (js "a.b.c")) with (ext := js "b.c").
    + split_and!; [reflexivity | discriminate | by repeat constructor].
    + intros [|? ?] ? ([=] & _); simpl; lia.
  - apply (stripExtension_first_extension (js "a.b" ++ [10%N] ++ js "c.d"))
      with (ext := js "d").
    + split_and!; [reflexivity | discriminate | by repeat constructor].
    + intros pre' ext' (Heq & _ & Hlt).
      destruct pre' as [|? [|? [|? [|? [|? pre']]]]]; simpl; try lia;
        simplify_eq/=.
      apply forallb_no_line_terminator in Hlt. discriminate Hlt.
Defined.

(** * More properties of the tree search *)

Section SearchFacts.
Context {A : Type}.
Implicit Types (n m t : Tree.Node A) (cs : list (Tree.Node A)).
Implicit Types (test : Tree.Node A → bool).

Lemma preorder_unfold a cs :
  preorder (Tree.mkNode a cs) = Tree.mkNode a cs :: (cs ≫= preorder).
Proof. reflexivity. Qed.

Lemma preorder_root t : t ∈ preorder t.
Proof. destruct t. rewrite preorder_unfold. by left. Qed.

(** A node of a subtree is a node of the tree. *)
Lemma preorder_trans n m t : n ∈ preorder m → m ∈ preorder t → n ∈ preorder t.
Proof.
  intros Hn. induction t as [a cs IH] using Node_ind.
  rewrite preorder_unfold, elem_of_cons, list_elem_of_bind.
  intros [-> | (c & Hm & Hc)]; [done |].
  rewrite Forall_forall in IH. right. apply list_elem_of_bind.
  exists c. split; [by apply IH | done].
Qed.

(** The result is empty exactly when no node of the tree passes the
    test. *)
Theorem findAll_empty_iff test t :
  Tree.findAll t test = [] ↔ Forall (λ n, test n = false) (preorder t).
Proof.
  induction t as [a cs IH] using Node_ind.
  rewrite findAll_unfold, preorder_unfold, Forall_cons.
  destruct (test (Tree.mkNode a cs)) eqn:Ht.
  - split; [done | by intros [? _]].
  - assert (cs ≫= (λ c, Tree.findAll c test) = []
            ↔ Forall (λ n, test n = false) (cs ≫= preorder)) as ->.
    { clear Ht. induction IH as [|c cs Hc _ IHcs]; csimpl; [done |].
      by rewrite app_nil, Forall_app, Hc, IHcs. }
    split; [done | by intros [_ ?]].
Qed.

(** Every node that passes the test is returned or lies in the subtree of
    a returned node. *)
Theorem findAll_covers test t n :
  n ∈ preorder t → test n = true →
  ∃ m, m ∈ Tree.findAll t test ∧ n ∈ preorder m.
Proof.
  intros Hn Htest. induction t as [a cs IH] using Node_ind.
  rewrite findAll_unfold.
  destruct (test (Tree.mkNode a cs)) eqn:Ht.
  - exists (Tree.mkNode a cs). split; [by left | done].
  - rewrite preorder_unfold, elem_of_cons, list_elem_of_bind in Hn.
    destruct Hn as [-> | (c & Hn & Hc)]; [congruence |].
    rewrite Forall_forall in IH.
    destruct (IH c Hc Hn) as (m & Hm & Hnm).
    exists m. split; [| done]. apply list_elem_of_bind. by exists c.
Qed.

(** The result is a subsequence of the matching nodes in pre-order. *)
Theorem findAll_sublist_filter test t :
  Tree.findAll t test `sublist_of` filter (λ n, test n = true) (preorder t).
Proof.
  induction t as [a cs IH] using Node_ind.
  rewrite findAll_unfold, preorder_unfold, filter_cons.
  destruct (test (Tree.mkNode a cs)) eqn:Ht.
  - rewrite decide_True by done. apply sublist_skip, sublist_nil_l.
  - rewrite decide_False by congruence. clear Ht.
    induction IH as [|c cs Hc _ IHcs]; csimpl; [done |].
    rewrite filter_app. by apply sublist_app.
Qed.

(** When no node that passes the test has another one below it, the
    result is all the matching nodes, in pre-order. *)
Theorem findAll_filter_flat test t :
  (∀ n, n ∈ preorder t → test n = true →
        Forall (λ m, test m = false) (Tree.children n ≫= preorder)) →
  Tree.findAll t test = filter (λ n, test n = true) (preorder t).
Proof.
  induction t as [a cs IH] using Node_ind. intros Hflat.
  rewrite findAll_unfold, preorder_unfold, filter_cons.
  destruct (test (Tree.mkNode a cs)) eqn:Ht.
  - rewrite decide_True by done. f_equal. symmetry.
    specialize (Hflat _ (preorder_root _) Ht). simpl in Hflat.
    induction Hflat as [|m ms Hm _ IHms]; [done |].
    rewrite filter_cons, decide_False by congruence. done.
  - rewrite decide_False by congruence.
    assert (∀ c, c ∈ cs → ∀ n, n ∈ preorder c → test n = true →
              Forall (λ m, test m = false) (Tree.children n ≫= preorder))
      as Hcs.
    { intros c Hc n Hn. apply Hflat. rewrite preorder_unfold. right.
      apply list_elem_of_bind. by exists c. }
    clear Hflat Ht.
    induction IH as [|c cs Hc _ IHcs]; csimpl; [done |].
    rewrite filter_app, Hc, IHcs; [done | |].
    + intros c' Hc'. apply Hcs. by right.
    + apply Hcs. by left.
Qed.

End SearchFacts.

(** * Properties of [isRelativePath] *)

Section RelativePathFacts.
Implicit Types (path s rest : JsString).
Local Set Warnings "-clear-no-such-hyp".

Lemma test_unfold p i s :
  RegExp.test p i s =
    match RegExp.matchAt p i s with
    | Some _ => true
    | None => match s with [] => false | _ :: s' => RegExp.test p (S i) s' end
    end.
Proof. by destruct s. Qed.

(** A pattern whose alternatives all start with [^] matches at index 0
    only. *)
Lemma test_anchored p q i s :
  RegExp.test
    (RegExp.Alt (RegExp.Seq RegExp.AssertStart p)
                (RegExp.Seq RegExp.AssertStart q)) (S i) s = false.
Proof.
  revert i. induction s as [|c s IH]; intros i; [done |].
  rewrite test_unfold. unfold RegExp.matchAt. simpl. apply IH.
Qed.

(** A path is relative exactly when it starts with [/], [./] or [../], or
    is [.] or [..]. *)
Theorem isRelativePath_spec path :
  isRelativePath path = true ↔
    (∃ rest, path = js "/" ++ rest)
    ∨ (∃ rest, path = js "./" ++ rest)
    ∨ (∃ rest, path = js "../" ++ rest)
    ∨ path = js "."
    ∨ path = js "..".
Proof.
  unfold isRelativePath. rewrite test_unfold.
  assert (∀ s, match s with
               | [] => false
               | _ :: s' =>
                   RegExp.test
                     (RegExp.Alt
                        (RegExp.Seq RegExp.AssertStart
                           (RegExp.Char (RegExp.Single (Lit solidus))))
                        (RegExp.Seq RegExp.AssertStart
                           (RegExp.Seq (RegExp.Char (RegExp.Single (Lit fullStop)))
                              (RegExp.Seq
                                 (RegExp.Optional
                                    (RegExp.Char (RegExp.Single (Lit fullStop))))
                                 (RegExp.Alt RegExp.AssertEnd
                                    (RegExp.Char (RegExp.Single (Lit solidus))))))))
                     1 s'
               end = false) as Hlater.
  { intros [|c s]; [done | apply test_anchored]. }
  rewrite Hlater. clear Hlater.
  change (js "/") with [47%N]. change (js "./") with [46%N; 47%N].
  change (js "../") with [46%N; 46%N; 47%N].
  change (js ".") with [46%N]. change (js "..") with [46%N; 46%N].
  unfold RegExp.matchAt, solidus, fullStop.
  destruct path as [|c1 [|c2 [|c3 rest]]]; simpl;
    repeat match goal with
           | |- context [(?c =? ?d)%N] => destruct (N.eqb_spec c d); subst
           end; simpl; naive_solver.
Qed.

End RelativePathFacts.

(** * Properties of [stripDollarSuffix] *)

Section DollarFacts.
Implicit Types (value s ds : JsString).

Local Abbreviation dollarPattern :=
  (RegExp.Seq (RegExp.Char (RegExp.Single (Lit dollar)))
     (RegExp.Seq (RegExp.OneOrMore RegExp.Digit) RegExp.AssertEnd)).

Lemma regexp_replace_unfold p replacement i s :
  RegExp.replace p replacement i s =
    match RegExp.matchAt p i s with
    | Some rest => replacement ++ rest
    | None =>
        match s with
        | [] => []
        | c :: s' => c :: RegExp.replace p replacement (S i) s'
        end
    end.
Proof. by destruct s. Qed.

(** The greedy loop of [\d+] before [$]. *)
Lemma digits_to_end j ds :
  (fix more (j : nat) (s : JsString) : option JsString :=
     match s with
     | c :: s' =>
         if RegExp.charMatches RegExp.Digit c then
           match more (S j) s' with
           | Some r => Some r
           | None => RegExp.run RegExp.AssertEnd (λ _ rest, Some rest) j s
           end
         else RegExp.run RegExp.AssertEnd (λ _ rest, Some rest) j s
     | [] => RegExp.run RegExp.AssertEnd (λ _ rest, Some rest) j s
     end) j ds
  = if forallb RegExp.isDigit ds then Some [] else None.
Proof.
  revert j. induction ds as [|c ds IH]; intros j; [done |].
  rewrite IH. simpl. destruct (RegExp.isDigit c); simpl; [| done].
  by destruct (forallb _ ds).
Qed.

Lemma matchAt_dollarPattern i s :
  RegExp.matchAt dollarPattern i s
  = if startsWithDollarSuffix s then Some [] else None.
Proof.
  unfold RegExp.matchAt.
  destruct s as [|c [|c' ds]]; simpl; [done | by destruct (_ =? _)%N |].
  rewrite digits_to_end.
  destruct (c =? dollar)%N; [| done]. simpl.
  by destruct (RegExp.isDigit c').
Qed.

Lemma forallb_isDigit ds :
  forallb RegExp.isDigit ds = true ↔ Forall (λ c, RegExp.isDigit c = true) ds.
Proof.
  induction ds as [|c ds IH]; simpl; [done |].
  by rewrite andb_true_iff, Forall_cons, IH.
Qed.

(** A [$] with one or more digits at the end of the value is removed, and
    nothing before it is: of several such suffixes in a row only the last
    one goes. *)
Theorem stripDollarSuffix_strips s ds :
  ds ≠ [] →
  Forall (λ c, RegExp.isDigit c = true) ds →
  stripDollarSuffix (s ++ dollar :: ds) = s.
Proof.
  intros Hds Hdigits. unfold stripDollarSuffix. generalize 0.
  induction s as [|c s IH]; intros i;
    rewrite regexp_replace_unfold, matchAt_dollarPattern; simpl.
  - destruct ds as [|d ds]; [done |].
    apply forallb_isDigit in Hdigits. by rewrite Hdigits.
  - assert (forallb RegExp.isDigit (s ++ dollar :: ds) = false) as Hno.
    { rewrite forallb_app. simpl. by rewrite andb_false_r. }
    destruct (s ++ dollar :: ds) as [|c' rest] eqn:Heq.
    { by destruct s. }
    rewrite Hno, andb_false_r. f_equal. apply IH.
Qed.

(** What is removed from a value is nothing, or a [$] with one or more
    digits that ends the value. *)
Theorem stripDollarSuffix_removes value :
  ∃ suffix,
    value = stripDollarSuffix value ++ suffix
    ∧ (suffix = []
       ∨ ∃ ds, suffix = dollar :: ds ∧ ds ≠ []
               ∧ Forall (λ c, RegExp.isDigit c = true) ds).
Proof.
  unfold stripDollarSuffix. generalize 0.
  induction value as [|c s IH]; intros i;
    rewrite regexp_replace_unfold, matchAt_dollarPattern.
  - exists []. by split; [| left].
  - destruct (startsWithDollarSuffix (c :: s)) eqn:Hstart.
    + exists (c :: s). split; [done |]. right.
      destruct s as [|d ds]; [done |]. simpl in Hstart.
      apply andb_true_iff in Hstart as [->%N.eqb_eq Hdigits].
      exists (d :: ds). split_and!; [done..|].
      by apply forallb_isDigit.
    + destruct (IH (S i)) as (suffix & Heq & Hsuffix).
      exists suffix. split; [| done]. simpl. by rewrite <- Heq.
Qed.

End DollarFacts.

Lemma stripDollarSuffix_strips_witness :
  stripDollarSuffix (js "foo$1$23") = js "foo$1".
Proof.
  apply (stripDollarSuffix_strips (js "foo$1") (js "23")).
  - discriminate.
  - by repeat constructor.
Defined.

(** * More properties of [stripExtension] *)

Section StripMoreFacts.
Implicit Types (s fileName : JsString).

(** No line terminator is removed with an extension. *)
Lemma stripExtension_line_terminators fileName :
  forallb (λ c, negb (isLineTerminator c)) (stripExtension fileName)
  = forallb (λ c, negb (isLineTerminator c)) fileName.
Proof.
  unfold stripExtension.
  induction fileName as [|c s IH];
    rewrite replace_unfold, matchHere_startsWithExtension; [done |].
  destruct (startsWithExtension (c :: s)) eqn:Hstart; simpl.
  - destruct s as [|c' s]; [done |]. simpl in Hstart.
    apply andb_true_iff in Hstart as [->%N.eqb_eq Hext].
    change (forallb _ (c' :: s)) with
      (negb (isLineTerminator c') && forallb (λ c, negb (isLineTerminator c)) s).
    by rewrite Hext.
  - by rewrite IH.
Qed.

(** Stripping the extension twice is stripping it once. *)
Theorem stripExtension_idempotent fileName :
  stripExtension (stripExtension fileName) = stripExtension fileName.
Proof.
  pose proof stripExtension_line_terminators as Hlt.
  unfold stripExtension in *.
  induction fileName as [|c s IH]; [done |].
  rewrite (replace_unfold _ _ (c :: s)), matchHere_startsWithExtension.
  destruct (startsWithExtension (c :: s)) eqn:Hstart; [done |].
  rewrite replace_unfold, matchHere_startsWithExtension.
  assert (startsWithExtension
            (c :: replace [One (Lit fullStop); Plus Dot; EndOfInput] [] s)
          = false) as ->; [| by rewrite IH].
  destruct s as [|c' s]; [done |].
  simpl in Hstart. apply andb_false_iff in Hstart as [Hc | Hext].
  - unfold startsWithExtension. destruct (replace _ _ (c' :: s)); [done |].
    by rewrite Hc.
  - specialize (Hlt (c' :: s)).
    change (forallb _ (c' :: s)) with
      (negb (isLineTerminator c') && forallb (λ c, negb (isLineTerminator c)) s)
      in Hlt.
    rewrite Hext in Hlt.
    unfold startsWithExtension. destruct (replace _ _ (c' :: s)); [done |].
    by rewrite Hlt, andb_false_r.
Qed.

End StripMoreFacts.

(** * More properties of partially ordered lists *)

Section POLMoreFacts.
Context {T : Type}.
Implicit Types l : POL.PartiallyOrderedList T.

Lemma imap_per_element {U V : Type} (F : U → V) (xs : list U) :
  imap (λ _ value, F value) xs = F <$> xs.
Proof. apply imap_const. Qed.

(** Whatever its arguments, [slice] returns a run of consecutive items of
    the list: it never fails, reorders or skips. *)
Theorem slice_segment l (start end_ : option Z) :
  ∃ before after,
    POL.items l = before ++ POL.items (POL.slice l start end_) ++ after.
Proof.
  unfold POL.slice; simpl.
  set (k := Z.to_nat (POL.relativeIndex _ (default 0%Z start))).
  set (count := Z.to_nat _).
  exists (take k (POL.items l)), (drop count (drop k (POL.items l))).
  by rewrite !take_drop.
Qed.

(** A negative start counts from the end: [slice(-k)] is the last [k]
    items, and the whole list when [k] exceeds its length. *)
Theorem slice_last l (k : nat) :
  0 < k →
  POL.items (POL.slice l (Some (- Z.of_nat k)%Z) None)
  = drop (length (POL.items l) - k) (POL.items l).
Proof.
  intros Hk. unfold POL.slice, POL.relativeIndex; simpl.
  destruct (Z.ltb_spec (- Z.of_nat k) 0) as [_ | ?]; [| lia].
  destruct (Z.ltb_spec (Z.of_nat (length (POL.items l))) 0) as [? | _]; [lia |].
  rewrite Z.min_id.
  replace (Z.to_nat (Z.max (Z.of_nat (length (POL.items l)) + - Z.of_nat k) 0))
    with (length (POL.items l) - k) by lia.
  apply take_ge. rewrite length_drop. lia.
Qed.

(** A start at or after the end, or an end at or before the start, gives
    the empty list. *)
Theorem slice_empty l (start end_ : Z) :
  (Z.of_nat (length (POL.items l)) ≤ start ∨ 0 ≤ end_ ≤ start)%Z →
  POL.items (POL.slice l (Some start) (Some end_)) = [].
Proof.
  intros Hrange. unfold POL.slice, POL.relativeIndex; simpl.
  set (len := Z.of_nat (length (POL.items l))) in *.
  assert (0 ≤ len)%Z by lia.
  replace (Z.to_nat _) with 0; [done |].
  destruct (Z.ltb_spec end_ 0), (Z.ltb_spec start 0); lia.
Qed.

(** A per-element transform commutes with [slice], for all bounds. *)
Theorem map_slice_commute {U : Type} l (F : T → U) (start end_ : option Z) :
  POL.slice (POL.map l (λ value _ _, F value)) start end_
  = POL.map (POL.slice l start end_) (λ value _ _, F value).
Proof.
  unfold POL.slice, POL.map; simpl. f_equal.
  rewrite !imap_per_element, length_fmap.
  by rewrite fmap_take, fmap_drop.
Qed.

(** A slice of a slice is a slice of the list. *)
Theorem slice_slice l (i j a b : Z) :
  (0 ≤ i ≤ j)%Z → (j ≤ Z.of_nat (length (POL.items l)))%Z →
  (0 ≤ a ≤ b)%Z → (b ≤ j - i)%Z →
  POL.slice (POL.slice l (Some i) (Some j)) (Some a) (Some b)
  = POL.slice l (Some (i + a)%Z) (Some (i + b)%Z).
Proof.
  intros Hij Hj Hab Hb.
  assert (POL.items (POL.slice l (Some i) (Some j))
          = take (Z.to_nat (j - i)) (drop (Z.to_nat i) (POL.items l)))
    as Hinner.
  { unfold POL.slice; simpl. rewrite !relativeIndex_in_range by lia.
    by rewrite Z.max_l by lia. }
  unfold POL.slice at 1 3. rewrite !Hinner. f_equal. simpl.
  rewrite length_take, length_drop.
  rewrite !relativeIndex_in_range by lia.
  rewrite !Z.max_l by lia.
  replace (i + b - (i + a))%Z with (b - a)%Z by lia.
  apply list_eq. intros n.
  destruct (decide (n < Z.to_nat (b - a))) as [Hn | Hn].
  - rewrite !lookup_take_lt, !lookup_drop by done.
    rewrite lookup_take_lt, lookup_drop by lia. f_equal. lia.
  - by rewrite !lookup_take_ge by lia.
Qed.

(** Two per-element transforms in a row are one. *)
Theorem map_map {U V : Type} l (F : T → U) (G : U → V) :
  POL.map (POL.map l (λ value _ _, F value)) (λ value _ _, G value)
  = POL.map l (λ value _ _, G (F value)).
Proof.
  unfold POL.map; simpl. f_equal.
  rewrite (imap_per_element F), (imap_const G).
  rewrite (imap_per_element (λ value, G (F value))).
  by rewrite <- list_fmap_compose.
Qed.

End POLMoreFacts.

(** * More properties of [resolveFileWithPostfixes] *)

Section ResolveMoreFacts.
Variable absoluteFrom : JsString → AbsoluteFsPath.
Implicit Types (path : AbsoluteFsPath) (postFixes : list JsString).

(** The path that is returned exists and is a file. *)
Theorem resolveFileWithPostfixes_is_file (fs : FileSystem) path postFixes p :
  resolveFileWithPostfixes absoluteFrom fs path postFixes = Some p →
  exists_ fs p = true ∧ isFile (stat fs p) = true.
Proof.
  induction postFixes as [|q qs IH]; simpl; [done |].
  destruct (exists_ fs _ && isFile _) eqn:Hq; [| done].
  intros [= <-]. by apply andb_true_iff in Hq.
Qed.

(** With two lists of postfixes in a row, the second one is tried only
    when the first one gives nothing. *)
Theorem resolveFileWithPostfixes_app (fs : FileSystem) path postFixes more :
  resolveFileWithPostfixes absoluteFrom fs path (postFixes ++ more)
  = match resolveFileWithPostfixes absoluteFrom fs path postFixes with
    | Some p => Some p
    | None => resolveFileWithPostfixes absoluteFrom fs path more
    end.
Proof.
  induction postFixes as [|q qs IH]; simpl; [done |].
  by destruct (exists_ fs _ && isFile _).
Qed.

(** When [stat] answers for every path that [exists] reports, the search
    does not throw, and returns what it returns on a file system that
    cannot throw. *)
Theorem resolveFileWithPostfixesT_returns (fs : ThrowingFileSystem)
    path postFixes :
  (∀ p, existsT fs p = true → is_Some (statT fs p)) →
  resolveFileWithPostfixesT absoluteFrom fs path postFixes
  = Returned
      (resolveFileWithPostfixes absoluteFrom (answers fs) path postFixes).
Proof.
  intros Hstat. induction postFixes as [|q qs IH]; simpl; [done |].
  destruct (existsT fs (absoluteFrom (path ++ q))) eqn:Hq; simpl; [| done].
  destruct (Hstat _ Hq) as [stats ->]. simpl.
  by destruct (isFile stats).
Qed.

End ResolveMoreFacts.

(** A path that is reported but cannot be read makes the search throw,
    unless a file is found before it. *)
Example resolveFileWithPostfixesT_throws :
  let fs := {| existsT := λ p, true;
               statT := λ p, if bool_decide (p = js "/a.js")
                             then Some {| isFile := true |} else None |} in
  resolveFileWithPostfixesT id fs (js "/a") [js ".ts"; js ".js"] = Thrown
  ∧ resolveFileWithPostfixesT id fs (js "/a") [js ".js"; js ".ts"]
    = Returned (Some (js "/a.js")).
Proof. by split. Qed.

Lemma resolveFileWithPostfixes_is_file_witness :
  let fs := {| exists_ := λ p, bool_decide (p = js "/a/b.d.ts");
               stat := λ p, {| isFile := true |} |} in
  exists_ fs (js "/a/b.d.ts") = true
  ∧ isFile (stat fs (js "/a/b.d.ts")) = true.
Proof.
  intros fs.
  apply (resolveFileWithPostfixes_is_file id fs (js "/a/b")
           [js ""; js ".d.ts"]).
  reflexivity.
Defined.

Lemma resolveFileWithPostfixesT_returns_witness :
  let fs := {| existsT := λ p, bool_decide (p = js "/a/b.d.ts");
               statT := λ p, if bool_decide (p = js "/a/b.d.ts")
                             then Some {| isFile := true |} else None |} in
  resolveFileWithPostfixesT id fs (js "/a/b") [js ""; js ".d.ts"]
  = Returned (Some (js "/a/b.d.ts")).
Proof.
  intros fs.
  rewrite (resolveFileWithPostfixesT_returns id fs (js "/a/b")
             [js ""; js ".d.ts"]).
  - reflexivity.
  - intros p Hp. simpl in *. rewrite Hp. by eexists.
Defined.

(** * Properties of [getOriginalSymbol] *)

Section OriginalSymbolFacts.
Context {Symbol : Type}.
Variable flags : Symbol → Z.
Variable aliasBit : Z.
Variable getAliasedSymbol : Symbol → Symbol.

(** Reduction to 32 bits keeps the low 32 bits. *)
Lemma toInt32_testbit (n k : Z) :
  (0 ≤ k < 32)%Z → Z.testbit (toInt32 n) k = Z.testbit n k.
Proof.
  intros Hk. unfold toInt32.
  rewrite <- (Z.mod_pow2_bits_low _ 32 k) by lia.
  rewrite <- (Z.mod_pow2_bits_low n 32 k) by lia.
  f_equal. change 4294967296%Z with (2 ^ 32)%Z.
  rewrite Zminus_mod_idemp_l. f_equal. lia.
Qed.

Lemma toInt32_zero (n : Z) : (n mod 2 ^ 32 = 0)%Z → toInt32 n = 0%Z.
Proof.
  intros Hzero. unfold toInt32. change 4294967296%Z with (2 ^ 32)%Z.
  rewrite <- Zplus_mod_idemp_l, Hzero. reflexivity.
Qed.

Lemma bitAnd_alias_bit (k f : Z) :
  (0 ≤ k < 32)%Z → truthy (bitAnd (shiftLeft 1 k) f) = Z.testbit f k.
Proof.
  intros Hk. unfold truthy, bitAnd.
  assert (∀ m, (0 ≤ m < 32)%Z →
            Z.testbit (Z.land (toInt32 (shiftLeft 1 k)) (toInt32 f)) m
            = bool_decide (k = m) && Z.testbit f m) as Hbits.
  { intros m Hm. unfold shiftLeft.
    rewrite Z.land_spec, !toInt32_testbit by done.
    rewrite Z.mod_small by lia. change (toInt32 1) with 1%Z.
    rewrite Z.shiftl_1_l, Z.pow2_bits_eqb by lia.
    by destruct (Z.eqb_spec k m); [rewrite bool_decide_true
                                  | rewrite bool_decide_false]. }
  destruct (Z.testbit f k) eqn:Hbit.
  - apply negb_true_iff, Z.eqb_neq. intros Hzero.
    assert (Z.testbit
              (toInt32 (Z.land (toInt32 (shiftLeft 1 k)) (toInt32 f))) k
            = false) as Hland by (rewrite Hzero; apply Z.bits_0).
    rewrite toInt32_testbit, Hbits, Hbit, bool_decide_true in Hland by done.
    done.
  - apply negb_false_iff, Z.eqb_eq, toInt32_zero, Z.bits_inj'. intros m Hm.
    rewrite Z.bits_0. destruct (decide (m < 32)%Z) as [Hlow | Hhigh].
    + rewrite Z.mod_pow2_bits_low, Hbits by lia.
      case_bool_decide as Hkm; [by rewrite <- Hkm, Hbit | done].
    + apply Z.mod_pow2_bits_high. lia.
Qed.

(** Of the flags of a symbol only the alias bit counts: a symbol with the
    bit set is resolved by the checker whatever its other flags are, and
    any other symbol is returned as it is. *)
Theorem getOriginalSymbol_alias_bit (symbol : Symbol) :
  (0 ≤ aliasBit < 32)%Z →
  getOriginalSymbol flags aliasBit getAliasedSymbol symbol
  = if Z.testbit (flags symbol) aliasBit then getAliasedSymbol symbol
    else symbol.
Proof.
  intros Hbit. unfold getOriginalSymbol, SymbolFlags_Alias.
  by rewrite bitAnd_alias_bit.
Qed.

End OriginalSymbolFacts.

(** With [Alias = 1 << 21]: a type alias that is also an alias (flags
    [2^19 + 2^21]) is resolved, a class (flags [32]) is not. *)
Example getOriginalSymbol_32_bits :
  shiftLeft 1 31 = (-2147483648)%Z
  ∧ shiftLeft 1 32 = 1%Z
  ∧ bitAnd 4294967296 4294967296 = 0%Z
  ∧ getOriginalSymbol (λ flags : Z, flags) 31 (λ _, 0%Z) (-1)%Z = 0%Z.
Proof. by split_and!. Qed.

Lemma getOriginalSymbol_alias_bit_witness :
  getOriginalSymbol (λ flags : Z, flags) 21 (λ _, 0%Z) 2621440%Z = 0%Z
  ∧ getOriginalSymbol (λ flags : Z, flags) 21 (λ _, 0%Z) 32%Z = 32%Z.
Proof.
  split.
  - rewrite (getOriginalSymbol_alias_bit (λ flags : Z, flags) 21 (λ _, 0%Z)
               2621440%Z) by lia.
    reflexivity.
  - rewrite (getOriginalSymbol_alias_bit (λ flags : Z, flags) 21 (λ _, 0%Z)
               32%Z) by lia.
    reflexivity.
Defined.

(** * Witnesses and cross-checks *)

Lemma findAll_covers_witness :
  ∃ m, m ∈ Tree.findAll Scenario.A
             (λ n, Scenario.isNamed "D" n || Scenario.isNamed "B" n)
       ∧ Scenario.D ∈ preorder m.
Proof.
  apply (findAll_covers
           (λ n, Scenario.isNamed "D" n || Scenario.isNamed "B" n)
           Scenario.A Scenario.D).
  - change (preorder Scenario.A)
      with [Scenario.A; Scenario.B; Scenario.D; Scenario.C].
    by do 2 right; left.
  - reflexivity.
Defined.

Lemma findAll_filter_flat_witness :
  Tree.findAll Scenario.A
    (λ n, Scenario.isNamed "D" n || Scenario.isNamed "C" n)
  = filter (λ n, Scenario.isNamed "D" n || Scenario.isNamed "C" n = true)
      (preorder Scenario.A).
Proof.
  apply (findAll_filter_flat
           (λ n, Scenario.isNamed "D" n || Scenario.isNamed "C" n)
           Scenario.A).
  intros n Hn.
  change (preorder Scenario.A)
    with [Scenario.A; Scenario.B; Scenario.D; Scenario.C] in Hn.
  apply list_elem_of_In in Hn. simpl in Hn.
  destruct Hn as [<- | [<- | [<- | [<- | []]]]]; intros Ht;
    try discriminate Ht; by repeat constructor.
Defined.

Lemma slice_last_witness :
  POL.items (POL.slice (POL.branded [1; 2; 3; 4]) (Some (-2)%Z) None) = [3; 4]
  ∧ POL.items (POL.slice (POL.branded [1; 2; 3; 4]) (Some (-9)%Z) None)
    = [1; 2; 3; 4].
Proof.
  split.
  - apply (slice_last (POL.branded [1; 2; 3; 4]) 2). lia.
  - apply (slice_last (POL.branded [1; 2; 3; 4]) 9). lia.
Defined.

Lemma slice_empty_witness :
  POL.items (POL.slice (POL.branded [1; 2; 3; 4]) (Some 4%Z) (Some 9%Z)) = []
  ∧ POL.items (POL.slice (POL.branded [1; 2; 3; 4]) (Some 3%Z) (Some 1%Z)) = [].
Proof.
  split.
  - apply (slice_empty (POL.branded [1; 2; 3; 4]) 4 9). simpl. lia.
  - apply (slice_empty (POL.branded [1; 2; 3; 4]) 3 1). simpl. lia.
Defined.

Lemma slice_slice_witness :
  POL.slice (POL.slice (POL.branded [1; 2; 3; 4; 5]) (Some 1%Z) (Some 4%Z))
    (Some 1%Z) (Some 2%Z)
  = POL.slice (POL.branded [1; 2; 3; 4; 5]) (Some 2%Z) (Some 3%Z).
Proof.
  apply (slice_slice (POL.branded [1; 2; 3; 4; 5]) 1 4 1 2); simpl; lia.
Defined.

(** The greedy loop of [.+] before [$], in a pattern with alternatives. *)
Lemma any_to_end j (ext : JsString) :
  (fix more (j : nat) (s : JsString) : option JsString :=
     match s with
     | c :: s' =>
         if RegExp.charMatches (RegExp.Single Dot) c then
           match more (S j) s' with
           | Some r => Some r
           | None => RegExp.run RegExp.AssertEnd (λ _ rest, Some rest) j s
           end
         else RegExp.run RegExp.AssertEnd (λ _ rest, Some rest) j s
     | [] => RegExp.run RegExp.AssertEnd (λ _ rest, Some rest) j s
     end) j ext
  = if forallb (λ c, negb (isLineTerminator c)) ext then Some [] else None.
Proof.
  revert j. induction ext as [|c ext IH]; intros j; [done |].
  rewrite IH. simpl. destruct (isLineTerminator c); simpl; [done |].
  by destruct (forallb _ ext).
Qed.

(** The pattern of [stripExtension], run as a pattern with alternatives,
    gives [stripExtension]. *)
Lemma stripExtension_as_pattern (fileName : JsString) :
  RegExp.replace
    (RegExp.Seq (RegExp.Char (RegExp.Single (Lit fullStop)))
       (RegExp.Seq (RegExp.OneOrMore (RegExp.Single Dot)) RegExp.AssertEnd))
    [] 0 fileName
  = stripExtension fileName.
Proof.
  unfold stripExtension. generalize 0.
  induction fileName as [|c s IH]; intros i; [done |].
  rewrite regexp_replace_unfold, replace_unfold, IH.
  rewrite matchHere_startsWithExtension.
  assert (RegExp.matchAt
            (RegExp.Seq (RegExp.Char (RegExp.Single (Lit fullStop)))
               (RegExp.Seq (RegExp.OneOrMore (RegExp.Single Dot))
                  RegExp.AssertEnd)) i (c :: s)
          = if startsWithExtension (c :: s) then Some [] else None) as ->;
    [| done].
  unfold RegExp.matchAt.
  destruct s as [|c' ext]; simpl; [by destruct (_ =? _)%N |].
  rewrite any_to_end.
  destruct (c =? fullStop)%N; [| done]. simpl.
  by destruct (isLineTerminator c').
Qed.

(** [preorder] lists the nodes at the positions of [Tree.positions], in
    the same order. *)
Lemma preorder_positions {A : Type} (t : Tree.Node A) :
  Tree.subtree_at t <$> Tree.positions t = Some <$> preorder t.
Proof.
  induction t as [a cs IH] using Node_ind.
  rewrite positions_unfold, preorder_unfold, !fmap_cons. f_equal.
  assert (∀ pre,
    Tree.subtree_at (Tree.mkNode a (pre ++ cs))
      <$> Tree.positions_below (length pre) cs
    = Some <$> (cs ≫= preorder)) as Hbelow.
  2: { apply (Hbelow []). }
  induction IH as [|c cs Hc _ IHcs]; intros pre; csimpl; [done |].
  rewrite !fmap_app, <- Hc, <- list_fmap_compose. f_equal.
  - apply list_fmap_ext. intros _ p _. simpl.
    by rewrite list_lookup_middle.
  - specialize (IHcs (pre ++ [c])).
    by rewrite length_app, Nat.add_1_r, <- app_assoc in IHcs.
Qed.
